(** * LinkageGraph: forward kinematics of planar linkages

    A shallow embedding of [LinkageGraph.js] (both versions of the file) and
    of [utils.js], with the properties of the lookups, of the step executor
    and of the fixed-point driver.

    Numbers.  A JavaScript [number] is an IEEE-754 double; here it is a real
    number or [NaN], an idealisation: arithmetic is exact (no rounding, no
    overflow, no infinities) and zero has no sign.  A quotient by zero is
    taken to be [NaN], which is what [Math.acos], the only consumer of the
    source's one quotient, makes of either infinity.  The control flow of
    the source never inspects a number (a [Point] is an object, and a
    number is never [null]), so everything proved below about lookups,
    the store, sweeps, errors and termination is independent of this
    choice.  The coordinates the two [forward] functions return are those
    of the exact formula; they are evaluated below only on the square
    linkage of the test suite, where the doubles of the source agree with
    them up to rounding.  No accuracy property of [forward] in double
    arithmetic is stated in this file.

    Effects.  [config.points] is a mutable [Map]; functions that write it
    are state transformers on [Config], and a thrown [Error] is a result
    that carries its message. *)

From Stdlib Require Import Reals Lra Psatz.
From stdpp Require Import base option list gmap strings.

Local Open Scope string_scope.

(** ** Numbers *)

Inductive number : Type :=
| Fin (r : R)
| NaN.

Module Num.

Definition lift1 (f : R -> R) (a : number) : number :=
  match a with
  | Fin r => Fin (f r)
  | NaN => NaN
  end.

Definition lift2 (f : R -> R -> R) (a b : number) : number :=
  match a, b with
  | Fin r, Fin s => Fin (f r s)
  | _, _ => NaN
  end.

Definition add : number -> number -> number := lift2 Rplus.
Definition sub : number -> number -> number := lift2 Rminus.
Definition mul : number -> number -> number := lift2 Rmult.

(** [a / b]; see the header for the zero divisor. *)
Definition div (a b : number) : number :=
  match a, b with
  | Fin r, Fin s => if Req_dec_T s 0 then NaN else Fin (r / s)%R
  | _, _ => NaN
  end.

(** [a ** n] for a literal exponent [n]; [NaN ** 0] is [1]. *)
Definition pow (a : number) (n : nat) : number :=
  match n with
  | O => Fin 1
  | S _ => lift1 (fun r => r ^ n)%R a
  end.

End Num.

Declare Scope num_scope.
Delimit Scope num_scope with num.
Bind Scope num_scope with number.
Infix "+" := Num.add : num_scope.
Infix "-" := Num.sub : num_scope.
Infix "*" := Num.mul : num_scope.
Infix "/" := Num.div : num_scope.
Infix "**" := Num.pow (at level 30, right associativity) : num_scope.

(** The mathematical [atan2] on the reals, by quadrant, as ECMAScript
    defines [Math.atan2(y, x)] on finite arguments. *)
Definition atan2R (y x : R) : R :=
  if Rlt_dec 0 x then atan (y / x)
  else if Rlt_dec x 0 then
    if Rle_dec 0 y then atan (y / x) + PI else atan (y / x) - PI
  else
    if Rlt_dec 0 y then PI / 2
    else if Rlt_dec y 0 then - (PI / 2)
    else 0.

Module Math.

Definition atan2 : number -> number -> number := Num.lift2 atan2R.
Definition cos : number -> number := Num.lift1 Rtrigo_def.cos.
Definition sin : number -> number := Num.lift1 Rtrigo_def.sin.

Definition sqrt (a : number) : number :=
  match a with
  | Fin r => if Rlt_dec r 0 then NaN else Fin (R_sqrt.sqrt r)
  | NaN => NaN
  end.

Definition acos (a : number) : number :=
  match a with
  | Fin r =>
      if Rlt_dec r (-1) then NaN
      else if Rlt_dec 1 r then NaN
      else Fin (Ratan.acos r)
  | NaN => NaN
  end.

End Math.

(** ** Data model *)

Abbreviation Ref := string (only parsing).

Record Point : Type := { x : number; y : number }.

Record Config : Type := {
  points : gmap string Point;
  lengths : gmap string number;
  angles : gmap string number;
}.

(** ** Thrown errors *)

Inductive result (A : Type) : Type :=
| Ok (a : A)
| Throw (message : string).
Arguments Ok {A} a.
Arguments Throw {A} message.

Definition bindR {A B} (r : result A) (k : A -> result B) : result B :=
  match r with
  | Ok a => k a
  | Throw message => Throw message
  end.

Notation "'let*' v ':=' r 'in' k" := (bindR r (fun v => k))
  (at level 10, v name, r at level 100, k at level 200).

(** [utils.js] *)
Definition getX {V} (m : gmap string V) (key : string) : result V :=
  match m !! key with
  | None => Throw ("no value for key " ++ key)
  | Some v => Ok v
  end.

(** ** Segment kinds *)

Record Segment (Refs In Out : Type) : Type := {
  (* returns null if the system doesn't yet contain the data required to
     compute this segment *)
  getInput : Config -> Refs -> result (option In);
  (* compute this segment's geometry *)
  forward : In -> Out;
  (* record the segment's computation into the system's cache *)
  setOutput : Config -> Refs -> Out -> Config;
  (* returns whether the segment's output is already in the cache *)
  hasSetOutput : Config -> Refs -> bool;
}.
Arguments getInput {Refs In Out} _ _ _.
Arguments forward {Refs In Out} _ _.
Arguments setOutput {Refs In Out} _ _ _ _.
Arguments hasSetOutput {Refs In Out} _ _ _.

Module MotorSegmentIn.
Record t : Type := { p0 : Point; p1 : Point; theta : number; len : number }.
End MotorSegmentIn.

Module MotorSegmentOut.
Record t : Type := { p2 : Point }.
End MotorSegmentOut.

Module MotorRefs.
Record t : Type := { p0 : Ref; p1 : Ref; p2 : Ref; theta : Ref; len : Ref }.
End MotorRefs.

Module PassiveSegmentIn.
Record t : Type := { p0 : Point; p1 : Point; len0 : number; len1 : number }.
End PassiveSegmentIn.

Module PassiveSegmentOut.
Record t : Type := { p2 : Point }.
End PassiveSegmentOut.

Module PassiveRefs.
Record t : Type := { p0 : Ref; p1 : Ref; p2 : Ref; len0 : Ref; len1 : Ref }.
End PassiveRefs.

(** [config.points.set(ref, p)] *)
Definition setPoint (config : Config) (ref : Ref) (p : Point) : Config :=
  {| points := <[ref := p]> (points config);
     lengths := lengths config;
     angles := angles config |}.

(** [!!config.points.get(ref)]: a [Point] is an object, hence truthy. *)
Definition hasPoint (config : Config) (ref : Ref) : bool :=
  match points config !! ref with
  | Some _ => true
  | None => false
  end.

Definition MotorSegment : Segment MotorRefs.t MotorSegmentIn.t MotorSegmentOut.t := {|
  getInput config refs :=
    let* p0 := getX (points config) (MotorRefs.p0 refs) in
    let* p1 := getX (points config) (MotorRefs.p1 refs) in
    let* theta := getX (angles config) (MotorRefs.theta refs) in
    let* len := getX (lengths config) (MotorRefs.len refs) in
    Ok (Some {| MotorSegmentIn.p0 := p0; MotorSegmentIn.p1 := p1;
                MotorSegmentIn.theta := theta; MotorSegmentIn.len := len |});
  forward input :=
    let '(MotorSegmentIn.Build_t p0 p1 theta len) := input in
    let alpha := Math.atan2 (y p1 - y p0) (x p1 - x p0) in
    {| MotorSegmentOut.p2 :=
         {| x := x p0 + len * Math.cos (alpha + theta);
            y := y p0 + len * Math.sin (alpha + theta) |} |}%num;
  setOutput config refs output :=
    setPoint config (MotorRefs.p2 refs) (MotorSegmentOut.p2 output);
  hasSetOutput config refs := hasPoint config (MotorRefs.p2 refs);
|}.

Definition PassiveSegment
  : Segment PassiveRefs.t PassiveSegmentIn.t PassiveSegmentOut.t := {|
  getInput config refs :=
    match points config !! PassiveRefs.p0 refs,
          points config !! PassiveRefs.p1 refs with
    | Some p0, Some p1 =>
        let* len0 := getX (lengths config) (PassiveRefs.len0 refs) in
        let* len1 := getX (lengths config) (PassiveRefs.len1 refs) in
        Ok (Some {| PassiveSegmentIn.p0 := p0; PassiveSegmentIn.p1 := p1;
                    PassiveSegmentIn.len0 := len0;
                    PassiveSegmentIn.len1 := len1 |})
    | _, _ =>
        (* these points might not have been computed yet *)
        Ok None
    end;
  forward input :=
    let '(PassiveSegmentIn.Build_t p0 p1 len0 len1) := input in
    let alpha := Math.atan2 (y p1 - y p0) (x p1 - x p0) in
    let len2 := Math.sqrt ((y p1 - y p0) ** 2 + (x p1 - x p0) ** 2) in
    (* law of cosines *)
    let theta :=
      Math.acos ((len1 ** 2 - len0 ** 2 - len2 ** 2) / (Fin (-2) * len0 * len2)) in
    {| PassiveSegmentOut.p2 :=
         {| x := x p0 + len0 * Math.cos (alpha + theta);
            y := y p0 + len0 * Math.sin (alpha + theta) |} |}%num;
  setOutput config refs output :=
    setPoint config (PassiveRefs.p2 refs) (PassiveSegmentOut.p2 output);
  hasSetOutput config refs := hasPoint config (PassiveRefs.p2 refs);
|}.

(** ** Step executor *)

(** try to compute the segment and return whether it was computed;
    if it was computed, the computation is recorded in [config].
    The second component is [config] after the call. *)
Definition forwardSegment {Refs In Out : Type}
    (config : Config) (SegmentKind : Segment Refs In Out) (refs : Refs)
  : result bool * Config :=
  if hasSetOutput SegmentKind config refs then
    (* segment was already computed *)
    (Ok false, config)
  else
    match getInput SegmentKind config refs with
    | Throw message => (Throw message, config)
    | Ok None =>
        (* config doesn't yet contain all the required input refs *)
        (Ok false, config)
    | Ok (Some input) =>
        (Ok true, setOutput SegmentKind config refs (forward SegmentKind input))
    end.

(** ** Fixed-point driver *)

Inductive SegmentRefs : Type :=
| t_m (refs : MotorRefs.t)
| t_p (refs : PassiveRefs.t).

(** the [switch (segment.t)] of the loop body *)
Definition forwardSegmentRefs (config : Config) (segment : SegmentRefs)
  : result bool * Config :=
  match segment with
  | t_m refs => forwardSegment config MotorSegment refs
  | t_p refs => forwardSegment config PassiveSegment refs
  end.

(** the [for (const segment of segments)] loop, threading [progress] *)
Fixpoint forSegments (config : Config) (segments : list SegmentRefs)
    (progress : bool) : result bool * Config :=
  match segments with
  | [] => (Ok progress, config)
  | segment :: rest =>
      match forwardSegmentRefs config segment with
      | (Ok computed, config') => forSegments config' rest (computed || progress)
      | (Throw message, config') => (Throw message, config')
      end
  end.

(** the [while (progress)] loop; every sweep uses one unit of [fuel], and
    [None] means that the fuel did not suffice *)
Fixpoint whileProgress (fuel : nat) (config : Config)
    (segments : list SegmentRefs) (computedSegments : nat)
  : option (result nat * Config) :=
  match fuel with
  | O => None
  | S fuel' =>
      match forSegments config segments false with
      | (Throw message, config') => Some (Throw message, config')
      | (Ok true, config') =>
          whileProgress fuel' config' segments (computedSegments + 1)
      | (Ok false, config') => Some (Ok computedSegments, config')
      end
  end.

Definition forwardConfigFuel (fuel : nat) (config : Config)
    (segments : list SegmentRefs) : option (result unit * Config) :=
  match whileProgress fuel config segments 0 with
  | None => None
  | Some (Throw message, config') => Some (Throw message, config')
  | Some (Ok computedSegments, config') =>
      if decide (computedSegments ≠ length segments) then
        Some (Throw "failed to compute all segments", config')
      else Some (Ok tt, config')
  end.

(** One sweep more than there are segments always suffices
    (see [whileProgress_fuel]). *)
Definition forwardConfig (config : Config) (segments : list SegmentRefs)
  : option (result unit * Config) :=
  forwardConfigFuel (S (length segments)) config segments.

(** ** Linkage assembler *)

Module Linkage.
Record t : Type := {
  staticPoints : gmap string Point;
  lengths : gmap string number;
  segments : list SegmentRefs;
}.
End Linkage.

(** [Object.keys(o).reduce((m, k) => m.set(k, o[k]), new Map())] *)
Definition toMap {V} (o : gmap string V) : gmap string V :=
  map_fold (fun k v m => <[k := v]> m) ∅ o.

Definition forwardLinkage (linkage : Linkage.t) (angles : gmap string number)
  : option (result Config) :=
  let points := toMap (Linkage.staticPoints linkage) in
  let lengths := toMap (Linkage.lengths linkage) in
  let config := {| points := points; lengths := lengths; angles := angles |} in
  match forwardConfig config (Linkage.segments linkage) with
  | None => None
  | Some (Throw message, _) => Some (Throw message)
  | Some (Ok _, config') => Some (Ok config')
  end.

(** ** The square linkage of the test suite *)

Definition pt (a b : R) : Point := {| x := Fin a; y := Fin b |}.

Definition squareMotor : SegmentRefs :=
  t_m {| MotorRefs.p0 := "p0"; MotorRefs.p1 := "p1"; MotorRefs.p2 := "p2";
         MotorRefs.len := "len0"; MotorRefs.theta := "theta0" |}.

Definition squarePassive : SegmentRefs :=
  t_p {| PassiveRefs.p0 := "p2"; PassiveRefs.p1 := "p1"; PassiveRefs.p2 := "p3";
         PassiveRefs.len0 := "len1"; PassiveRefs.len1 := "len2" |}.

Definition squareLinkage (segments : list SegmentRefs) : Linkage.t := {|
  Linkage.staticPoints := <["p0" := pt 0 0]> (<["p1" := pt 1 0]> ∅);
  Linkage.lengths :=
    <["len0" := Fin 1]> (<["len1" := Fin 1]> (<["len2" := Fin 1]> ∅));
  Linkage.segments := segments;
|}.

Definition squareAngles : gmap string number := <["theta0" := Fin (PI / 2)]> ∅.

Definition squareConfig : Config := {|
  points := toMap (Linkage.staticPoints (squareLinkage []));
  lengths := toMap (Linkage.lengths (squareLinkage []));
  angles := squareAngles;
|}.

(** The inputs and outputs of the two solver calls of the square linkage,
    and the store once both outputs are recorded. *)
Definition squareMotorIn : MotorSegmentIn.t :=
  {| MotorSegmentIn.p0 := pt 0 0; MotorSegmentIn.p1 := pt 1 0;
     MotorSegmentIn.theta := Fin (PI / 2); MotorSegmentIn.len := Fin 1 |}.

Definition squareP2 : Point :=
  MotorSegmentOut.p2 (forward MotorSegment squareMotorIn).

Definition squarePassiveIn : PassiveSegmentIn.t :=
  {| PassiveSegmentIn.p0 := squareP2; PassiveSegmentIn.p1 := pt 1 0;
     PassiveSegmentIn.len0 := Fin 1; PassiveSegmentIn.len1 := Fin 1 |}.

Definition squareP3 : Point :=
  PassiveSegmentOut.p2 (forward PassiveSegment squarePassiveIn).

Definition squareResolved : Config :=
  setPoint (setPoint squareConfig "p2" squareP2) "p3" squareP3.

(** ** Vocabulary of the properties *)

(** The reference a segment writes, and whether the store holds it: this is
    [hasSetOutput] of the segment's kind. *)
Definition outputRef (segment : SegmentRefs) : Ref :=
  match segment with
  | t_m refs => MotorRefs.p2 refs
  | t_p refs => PassiveRefs.p2 refs
  end.

Definition resolved (config : Config) (segment : SegmentRefs) : bool :=
  hasPoint config (outputRef segment).

(** the number of segments whose output is recorded in the store *)
Fixpoint resolvedCount (config : Config) (segments : list SegmentRefs) : nat :=
  match segments with
  | [] => 0
  | segment :: rest =>
      (if resolved config segment then 1 else 0) + resolvedCount config rest
  end.

(** [config'] binds every point reference as [config] does (and maybe
    more), and has the same lengths and angles. *)
Definition extends (config config' : Config) : Prop :=
  (forall k v, points config !! k = Some v -> points config' !! k = Some v) /\
  lengths config' = lengths config /\
  angles config' = angles config.

(** A Motor segment whose reference edge starts at the computed point [p2]
    of the square linkage. *)
Definition motorOnP2 : MotorRefs.t :=
  {| MotorRefs.p0 := "p2"; MotorRefs.p1 := "p1"; MotorRefs.p2 := "p4";
     MotorRefs.len := "len1"; MotorRefs.theta := "theta0" |}.

Definition passiveOnP2 : PassiveRefs.t :=
  {| PassiveRefs.p0 := "p2"; PassiveRefs.p1 := "p1"; PassiveRefs.p2 := "p3";
     PassiveRefs.len0 := "len1"; PassiveRefs.len1 := "len2" |}.

(** ** The first version of the file: [src/LinkageGraph.js]

    It differs from the version above in the two [forward] functions only,
    which are not implemented yet and return the origin; its driver has the
    same text and runs on these segment kinds. *)

Definition MotorSegmentStub
  : Segment MotorRefs.t MotorSegmentIn.t MotorSegmentOut.t := {|
  getInput := getInput MotorSegment;
  forward input :=
    (* TODO: implement this *)
    {| MotorSegmentOut.p2 := {| x := Fin 0; y := Fin 0 |} |};
  setOutput := setOutput MotorSegment;
  hasSetOutput := hasSetOutput MotorSegment;
|}.

Definition PassiveSegmentStub
  : Segment PassiveRefs.t PassiveSegmentIn.t PassiveSegmentOut.t := {|
  getInput := getInput PassiveSegment;
  forward input :=
    (* TODO: implement this *)
    {| PassiveSegmentOut.p2 := {| x := Fin 0; y := Fin 0 |} |};
  setOutput := setOutput PassiveSegment;
  hasSetOutput := hasSetOutput PassiveSegment;
|}.

Definition forwardSegmentRefsStub (config : Config) (segment : SegmentRefs)
  : result bool * Config :=
  match segment with
  | t_m refs => forwardSegment config MotorSegmentStub refs
  | t_p refs => forwardSegment config PassiveSegmentStub refs
  end.

Fixpoint forSegmentsStub (config : Config) (segments : list SegmentRefs)
    (progress : bool) : result bool * Config :=
  match segments with
  | [] => (Ok progress, config)
  | segment :: rest =>
      match forwardSegmentRefsStub config segment with
      | (Ok computed, config') =>
          forSegmentsStub config' rest (computed || progress)
      | (Throw message, config') => (Throw message, config')
      end
  end.

Fixpoint whileProgressStub (fuel : nat) (config : Config)
    (segments : list SegmentRefs) (computedSegments : nat)
  : option (result nat * Config) :=
  match fuel with
  | O => None
  | S fuel' =>
      match forSegmentsStub config segments false with
      | (Throw message, config') => Some (Throw message, config')
      | (Ok true, config') =>
          whileProgressStub fuel' config' segments (computedSegments + 1)
      | (Ok false, config') => Some (Ok computedSegments, config')
      end
  end.

Definition forwardConfigFuelStub (fuel : nat) (config : Config)
    (segments : list SegmentRefs) : option (result unit * Config) :=
  match whileProgressStub fuel config segments 0 with
  | None => None
  | Some (Throw message, config') => Some (Throw message, config')
  | Some (Ok computedSegments, config') =>
      if decide (computedSegments ≠ length segments) then
        Some (Throw "failed to compute all segments", config')
      else Some (Ok tt, config')
  end.

(** Two stores that bind the same point references (maybe to different
    points) and have the same lengths and angles. *)
Definition sameRefs (config1 config2 : Config) : Prop :=
  (forall k, is_Some (points config1 !! k) <-> is_Some (points config2 !! k)) /\
  lengths config1 = lengths config2 /\
  angles config1 = angles config2.

(** The store is consistent for a segment: the segment's inputs can be
    gathered from it, and its output reference is bound to what [forward]
    returns on them. *)
Definition consistent (config : Config) (segment : SegmentRefs) : Prop :=
  match segment with
  | t_m refs =>
      exists input,
        getInput MotorSegment config refs = Ok (Some input) /\
        points config !! MotorRefs.p2 refs
        = Some (MotorSegmentOut.p2 (forward MotorSegment input))
  | t_p refs =>
      exists input,
        getInput PassiveSegment config refs = Ok (Some input) /\
        points config !! PassiveRefs.p2 refs
        = Some (PassiveSegmentOut.p2 (forward PassiveSegment input))
  end.

(** every resolved segment of the list is consistent *)
Definition resolvedConsistent (config : Config) (segments : list SegmentRefs)
  : Prop :=
  forall s, s ∈ segments -> resolved config s = true -> consistent config s.

(** the message of [getX] for a missing [key] *)
Definition noValue (key : Ref) : string := "no value for key " ++ key.

(** ** The step executor and the store *)

Section Store.

Implicit Types (config : Config) (segment : SegmentRefs).

(** Copying an object's entries into a fresh [Map] gives the same bindings. *)
Lemma toMap_id {V} (o : gmap string V) : toMap o = o.
Proof.
  unfold toMap.
  apply (map_fold_weak_ind (fun r m => r = m)); [reflexivity|].
  intros i v m r _ ->. reflexivity.
Qed.

Lemma forwardSegment_cases {Refs In Out} config
    (SegmentKind : Segment Refs In Out) (refs : Refs) r config' :
  forwardSegment config SegmentKind refs = (r, config') ->
  (config' = config /\ r <> Ok true) \/
  (r = Ok true /\ hasSetOutput SegmentKind config refs = false /\
   exists input, getInput SegmentKind config refs = Ok (Some input) /\
     config' = setOutput SegmentKind config refs (forward SegmentKind input)).
Proof.
  unfold forwardSegment.
  destruct (hasSetOutput SegmentKind config refs) eqn:Hhas.
  - intros [= <- <-]. left. split; [reflexivity | discriminate].
  - destruct (getInput SegmentKind config refs) as [[input|]|message] eqn:Hin;
      intros [= <- <-].
    + right. repeat split. exists input. split; reflexivity.
    + left. split; [reflexivity | discriminate].
    + left. split; [reflexivity | discriminate].
Qed.

Lemma forwardSegmentRefs_cases config segment r config' :
  forwardSegmentRefs config segment = (r, config') ->
  (config' = config /\ r <> Ok true) \/
  (r = Ok true /\ resolved config segment = false /\
   exists v, config' = setPoint config (outputRef segment) v).
Proof.
  destruct segment as [refs|refs]; simpl; intros Hfw;
    apply forwardSegment_cases in Hfw as [Hsame | (Hr & Hhas & input & _ & Hc)];
    [left; exact Hsame | right | left; exact Hsame | right];
    (split; [exact Hr | split; [exact Hhas | eexists; exact Hc]]).
Qed.

Lemma points_setPoint_mono config ref v k w :
  hasPoint config ref = false ->
  points config !! k = Some w -> points (setPoint config ref v) !! k = Some w.
Proof.
  unfold hasPoint, setPoint; simpl. intros Hfree Hk.
  destruct (decide (ref = k)) as [->|Hne].
  - rewrite Hk in Hfree. discriminate.
  - rewrite lookup_insert_ne by exact Hne. exact Hk.
Qed.

Lemma resolved_setPoint_mono config ref v segment :
  resolved config segment = true ->
  resolved (setPoint config ref v) segment = true.
Proof.
  unfold resolved, hasPoint, setPoint; simpl.
  destruct (decide (ref = outputRef segment)) as [->|Hne].
  - rewrite lookup_insert_eq. reflexivity.
  - rewrite lookup_insert_ne by exact Hne. trivial.
Qed.

Lemma resolved_setPoint_self config segment v :
  resolved (setPoint config (outputRef segment) v) segment = true.
Proof.
  unfold resolved, hasPoint, setPoint; simpl.
  rewrite lookup_insert_eq. reflexivity.
Qed.

Lemma resolvedCount_le_length config segments :
  resolvedCount config segments <= length segments.
Proof.
  induction segments as [|s rest IH]; simpl; [lia|].
  destruct (resolved config s); lia.
Qed.

Lemma resolvedCount_setPoint_mono config ref v segments :
  resolvedCount config segments <= resolvedCount (setPoint config ref v) segments.
Proof.
  induction segments as [|s rest IH]; simpl; [lia|].
  destruct (resolved config s) eqn:Hs.
  - rewrite (resolved_setPoint_mono _ ref v _ Hs). lia.
  - destruct (resolved (setPoint config ref v) s); lia.
Qed.

Lemma resolvedCount_setPoint_lt config segment v segments :
  segment ∈ segments ->
  resolved config segment = false ->
  resolvedCount config segments
  < resolvedCount (setPoint config (outputRef segment) v) segments.
Proof.
  intros Hin Hfree.
  induction segments as [|s rest IH]; [inversion Hin|].
  apply elem_of_cons in Hin as [<-|Hin]; simpl.
  - rewrite Hfree, resolved_setPoint_self.
    pose proof (resolvedCount_setPoint_mono config (outputRef segment) v rest).
    lia.
  - specialize (IH Hin).
    destruct (resolved config s) eqn:Hs.
    + rewrite (resolved_setPoint_mono _ (outputRef segment) v _ Hs). lia.
    + destruct (resolved (setPoint config (outputRef segment) v) s); lia.
Qed.

End Store.

(** ** Sweeps *)

Section Sweeps.

Implicit Types (config : Config) (segment : SegmentRefs).

Lemma extends_refl config : extends config config.
Proof. repeat split; trivial. Qed.

Lemma extends_trans config1 config2 config3 :
  extends config1 config2 -> extends config2 config3 -> extends config1 config3.
Proof.
  intros (Hp & Hl & Ha) (Hp' & Hl' & Ha').
  repeat split; [auto | congruence | congruence].
Qed.

Lemma extends_resolved config config' segment :
  extends config config' ->
  resolved config segment = true -> resolved config' segment = true.
Proof.
  intros (Hp & _). unfold resolved, hasPoint.
  destruct (points config !! outputRef segment) as [v|] eqn:Hk; [|discriminate].
  rewrite (Hp _ _ Hk). trivial.
Qed.

Lemma forwardSegmentRefs_extends config segment r config' :
  forwardSegmentRefs config segment = (r, config') -> extends config config'.
Proof.
  intros Hfw.
  apply forwardSegmentRefs_cases in Hfw as [[-> _] | (_ & Hfree & v & ->)].
  - apply extends_refl.
  - repeat split. intros k w. apply points_setPoint_mono. exact Hfree.
Qed.

(** One pass of the [for] loop over a part [segments] of the list [all]:
    the store only grows, and the pass reports progress only if it was
    entered with [progress] set or resolved one more segment of [all]. *)
Lemma forSegments_progress all segments : forall config progress r config',
  (forall s, s ∈ segments -> s ∈ all) ->
  forSegments config segments progress = (r, config') ->
  extends config config' /\
  resolvedCount config all <= resolvedCount config' all /\
  (r = Ok true ->
   progress = true \/ resolvedCount config all < resolvedCount config' all) /\
  (r = Ok false -> config' = config).
Proof.
  induction segments as [|s rest IH]; intros config progress r config' Hall; simpl.
  - intros [= <- <-]. split; [apply extends_refl|].
    split; [lia|]. split; [intros [= ->]; left; reflexivity | reflexivity].
  - destruct (forwardSegmentRefs config s) as [[computed|message] config1] eqn:Hfw.
    + intros Hrest. pose proof Hrest as Hrest0.
      apply IH in Hrest0 as (Hext & Hle & Hprog & Hnone);
        [|intros s' Hs'; apply Hall; apply elem_of_cons; right; exact Hs'].
      pose proof (forwardSegmentRefs_extends _ _ _ _ Hfw) as Hext1.
      apply forwardSegmentRefs_cases in Hfw
        as [[-> Hneq] | (Hr & Hfree & v & ->)].
      * split; [exact Hext|]. split; [exact Hle|]. split.
        -- intros Hr. destruct (Hprog Hr) as [Hor|Hlt]; [|right; exact Hlt].
           destruct computed; [exfalso; apply Hneq; reflexivity|].
           left. exact Hor.
        -- intros Hr. destruct computed; [exfalso; apply Hneq; reflexivity|].
           apply Hnone. exact Hr.
      * assert (Hlt : resolvedCount config all
                      < resolvedCount (setPoint config (outputRef s) v) all).
        { apply resolvedCount_setPoint_lt; [|exact Hfree].
          apply Hall. apply elem_of_cons. left. reflexivity. }
        split; [eapply extends_trans; eassumption|].
        split; [lia|]. split; [intros _; right; lia|].
        intros Hr'. injection Hr as ->. simpl in Hnone.
        (* a pass that computed a segment cannot end without progress *)
        exfalso. clear - Hrest Hr'. subst r.
        revert Hrest. generalize (setPoint config (outputRef s) v).
        induction rest as [|s' rest' IH']; intros c; simpl.
        -- discriminate.
        -- destruct (forwardSegmentRefs c s') as [[b|m] c1]; [|discriminate].
           rewrite orb_true_r. apply IH'.
    + intros [= <- <-].
      split; [eapply forwardSegmentRefs_extends; exact Hfw|].
      apply forwardSegmentRefs_cases in Hfw as [[-> _] | (Hr & _)];
        [|discriminate].
      split; [lia|]. split; discriminate.
Qed.

(** Enough fuel: every progressing sweep resolves a segment that was not
    resolved before. *)
Lemma whileProgress_fuel segments : forall fuel config computedSegments,
  length segments - resolvedCount config segments < fuel ->
  exists r config',
    whileProgress fuel config segments computedSegments = Some (r, config').
Proof.
  induction fuel as [|fuel IH]; intros config computedSegments Hfuel; [lia|].
  simpl.
  destruct (forSegments config segments false) as [[[|]|message] config1] eqn:Hsweep.
  - apply (forSegments_progress segments) in Hsweep
      as (_ & _ & Hprog & _); [|auto].
    destruct (Hprog eq_refl) as [Hno|Hlt]; [discriminate|].
    apply IH.
    pose proof (resolvedCount_le_length config1 segments). lia.
  - eauto.
  - eauto.
Qed.

Lemma whileProgress_more_fuel segments : forall fuel fuel' config computedSegments out,
  whileProgress fuel config segments computedSegments = Some out ->
  fuel <= fuel' ->
  whileProgress fuel' config segments computedSegments = Some out.
Proof.
  induction fuel as [|fuel IH]; intros fuel' config computedSegments out;
    [discriminate|].
  destruct fuel' as [|fuel']; [lia|]. simpl.
  destruct (forSegments config segments false) as [[[|]|message] config1];
    [|trivial..].
  intros Hrun Hle. apply (IH fuel'); [exact Hrun | lia].
Qed.

(** What the loop leaves behind: the store has only grown, no sweep can
    make progress any more, and [computedSegments] has been incremented
    at most once per newly resolved segment. *)
Lemma whileProgress_result segments : forall fuel config computedSegments r config',
  whileProgress fuel config segments computedSegments = Some (r, config') ->
  extends config config' /\
  forall n, r = Ok n ->
    computedSegments <= n /\
    (n - computedSegments) + resolvedCount config segments
    <= resolvedCount config' segments /\
    forSegments config' segments false = (Ok false, config').
Proof.
  induction fuel as [|fuel IH]; intros config computedSegments r config';
    [discriminate|].
  simpl.
  destruct (forSegments config segments false) as [[[|]|message] config1] eqn:Hsweep.
  - intros Hrun.
    pose proof Hsweep as Hs.
    apply (forSegments_progress segments) in Hs as (Hext & _ & Hprog & _); [|auto].
    destruct (Hprog eq_refl) as [Hno|Hlt]; [discriminate|].
    apply IH in Hrun as (Hext' & Hn).
    split; [eapply extends_trans; eassumption|].
    intros n Hr. destruct (Hn n Hr) as (Hle & Hcount & Hfix).
    split; [lia|]. split; [lia | exact Hfix].
  - intros [= <- <-].
    pose proof Hsweep as Hs.
    apply (forSegments_progress segments) in Hs as (Hext & _ & _ & Hsame); [|auto].
    specialize (Hsame eq_refl). subst config1.
    split; [apply extends_refl|].
    intros n [= <-]. split; [lia|]. split; [lia | exact Hsweep].
  - intros [= <- <-].
    apply (forSegments_progress segments) in Hsweep as (Hext & _); [|auto].
    split; [exact Hext | discriminate].
Qed.

End Sweeps.

(** ** Numbers: the finite cases *)

Section FiniteNumbers.

Local Open Scope R_scope.

Lemma Math_sqrt_Fin (r : R) : 0 <= r -> Math.sqrt (Fin r) = Fin (sqrt r).
Proof. intros Hr. unfold Math.sqrt. destruct (Rlt_dec r 0); [lra | reflexivity]. Qed.

Lemma Math_acos_Fin (r : R) :
  -1 <= r <= 1 -> Math.acos (Fin r) = Fin (acos r).
Proof.
  intros Hr. unfold Math.acos.
  destruct (Rlt_dec r (-1)); [lra|]. destruct (Rlt_dec 1 r); [lra | reflexivity].
Qed.

Lemma Num_div_Fin (r s : R) : s <> 0 -> Num.div (Fin r) (Fin s) = Fin (r / s).
Proof.
  intros Hs. unfold Num.div. destruct (Req_dec_T s 0); [contradiction | reflexivity].
Qed.

Lemma atan2R_pos (y x : R) : 0 < x -> atan2R y x = atan (y / x).
Proof. intros Hx. unfold atan2R. destruct (Rlt_dec 0 x); [reflexivity | lra]. Qed.

Lemma sum_sqr_nonneg (a b : R) : 0 <= a ^ 2 + b ^ 2.
Proof. nra. Qed.

(** [MotorSegment.forward] on finite input, as the source computes it. *)
Lemma MotorSegment_forward_Fin (p0x p0y p1x p1y theta len : R) :
  forward MotorSegment
    {| MotorSegmentIn.p0 := pt p0x p0y; MotorSegmentIn.p1 := pt p1x p1y;
       MotorSegmentIn.theta := Fin theta; MotorSegmentIn.len := Fin len |}
  = {| MotorSegmentOut.p2 :=
         pt (p0x + len * cos (atan2R (p1y - p0y) (p1x - p0x) + theta))
            (p0y + len * sin (atan2R (p1y - p0y) (p1x - p0x) + theta)) |}.
Proof. reflexivity. Qed.

(** [PassiveSegment.forward] on finite input, when the quotient of the law
    of cosines is defined and in the domain of [Math.acos]. *)
Lemma PassiveSegment_forward_Fin (p0x p0y p1x p1y len0 len1 : R) :
  let len2 := sqrt ((p1y - p0y) ^ 2 + (p1x - p0x) ^ 2) in
  let c := (len1 ^ 2 - len0 ^ 2 - len2 ^ 2) / (-2 * len0 * len2) in
  -2 * len0 * len2 <> 0 ->
  -1 <= c <= 1 ->
  forward PassiveSegment
    {| PassiveSegmentIn.p0 := pt p0x p0y; PassiveSegmentIn.p1 := pt p1x p1y;
       PassiveSegmentIn.len0 := Fin len0; PassiveSegmentIn.len1 := Fin len1 |}
  = {| PassiveSegmentOut.p2 :=
         pt (p0x + len0 * cos (atan2R (p1y - p0y) (p1x - p0x) + acos c))
            (p0y + len0 * sin (atan2R (p1y - p0y) (p1x - p0x) + acos c)) |}.
Proof.
  intros len2 c Hden Hc.
  cbn [forward PassiveSegment pt x y Num.sub Num.add Num.mul Num.pow
       Num.lift1 Num.lift2 Math.atan2].
  rewrite Math_sqrt_Fin by apply sum_sqr_nonneg.
  fold len2.
  cbn [Num.sub Num.add Num.mul Num.pow Num.lift1 Num.lift2].
  rewrite Num_div_Fin by exact Hden.
  fold c. rewrite Math_acos_Fin by exact Hc.
  reflexivity.
Qed.

(** The two solver calls of the square linkage. *)
Lemma square_motor :
  forward MotorSegment
    {| MotorSegmentIn.p0 := pt 0 0; MotorSegmentIn.p1 := pt 1 0;
       MotorSegmentIn.theta := Fin (PI / 2); MotorSegmentIn.len := Fin 1 |}
  = {| MotorSegmentOut.p2 := pt 0 1 |}.
Proof.
  rewrite MotorSegment_forward_Fin.
  rewrite atan2R_pos by lra.
  replace ((0 - 0) / (1 - 0)) with 0 by lra.
  rewrite atan_0.
  replace (0 + PI / 2) with (PI / 2) by lra.
  rewrite cos_PI2, sin_PI2.
  unfold pt. do 3 f_equal; lra.
Qed.

Lemma square_passive :
  forward PassiveSegment
    {| PassiveSegmentIn.p0 := pt 0 1; PassiveSegmentIn.p1 := pt 1 0;
       PassiveSegmentIn.len0 := Fin 1; PassiveSegmentIn.len1 := Fin 1 |}
  = {| PassiveSegmentOut.p2 := pt 1 1 |}.
Proof.
  assert (Hlen2 : sqrt ((0 - 1) ^ 2 + (1 - 0) ^ 2) = sqrt 2) by (f_equal; lra).
  assert (Hs2 : 0 < sqrt 2) by (apply sqrt_lt_R0; lra).
  assert (Hc : (1 ^ 2 - 1 ^ 2 - sqrt 2 ^ 2) / (-2 * 1 * sqrt 2) = / sqrt 2).
  { assert (Hsq : sqrt 2 * sqrt 2 = 2) by (apply sqrt_def; lra).
    field_simplify_eq; [nra | lra]. }
  rewrite PassiveSegment_forward_Fin; rewrite Hlen2, ?Hc.
  - rewrite acos_inv_sqrt2, atan2R_pos by lra.
    replace ((0 - 1) / (1 - 0)) with (Ropp 1) by lra.
    rewrite atan_opp, atan_1.
    replace (- (PI / 4) + PI / 4) with 0 by lra.
    rewrite cos_0, sin_0.
    unfold pt. do 3 f_equal; lra.
  - lra.
  - assert (Hinv : 0 < / sqrt 2) by (apply Rinv_0_lt_compat; exact Hs2).
    assert (Hle : / sqrt 2 * sqrt 2 = 1) by (apply Rinv_l; lra).
    assert (H1 : 1 <= sqrt 2).
    { rewrite <- sqrt_1 at 1. apply sqrt_le_1_alt. lra. }
    split; [lra | nra].
Qed.

End FiniteNumbers.

(** ** The fixed-point driver *)

(** X1: when [forwardConfig] returns normally, every segment has its output
    in the store.  The converse fails on the square linkage. *)
Lemma forwardConfig_returns_all_resolved config segments fuel config' :
  forwardConfigFuel fuel config segments = Some (Ok tt, config') ->
  resolvedCount config' segments = length segments.
Proof.
  unfold forwardConfigFuel.
  destruct (whileProgress fuel config segments 0) as [[[n|message] c]|] eqn:Hrun;
    [|discriminate..].
  destruct (decide (n ≠ length segments)) as [Hne|Heq]; [discriminate|].
  intros [= <-].
  apply whileProgress_result in Hrun as (_ & Hn).
  destruct (Hn n eq_refl) as (_ & Hcount & _).
  pose proof (resolvedCount_le_length c segments).
  assert (n = length segments) by (destruct (decide (n = length segments)); tauto).
  lia.
Qed.

(** A normal return: the square linkage with the Passive segment first. *)
Lemma forwardConfig_returns_all_resolved_witness :
  resolvedCount squareResolved [squarePassive; squareMotor] = 2.
Proof.
  apply (forwardConfig_returns_all_resolved squareConfig
           [squarePassive; squareMotor] 3 squareResolved).
  vm_compute. reflexivity.
Defined.

Lemma squareP2_value : squareP2 = pt 0 1.
Proof. unfold squareP2, squareMotorIn. rewrite square_motor. reflexivity. Qed.

Lemma squareP3_value : squareP3 = pt 1 1.
Proof.
  unfold squareP3, squarePassiveIn. rewrite squareP2_value, square_passive.
  reflexivity.
Qed.

Lemma squareResolved_points :
  points squareResolved !! "p2" = Some (pt 0 1) /\
  points squareResolved !! "p3" = Some (pt 1 1).
Proof.
  unfold squareResolved. rewrite squareP2_value, squareP3_value.
  generalize (pt 0 1) (pt 1 1). intros a b.
  split; vm_compute; reflexivity.
Qed.

(** C1 (the code departs from it): on the square linkage, given in
    dependency order, the sweep loop stops with both segments resolved in the
    store, and [forwardConfig] throws 'failed to compute all segments' all
    the same: [computedSegments] has counted the one sweep that made
    progress, not the two segments that sweep computed. *)
Theorem forwardConfig_square_throws :
  forwardConfig squareConfig [squareMotor; squarePassive]
  = Some (Throw "failed to compute all segments", squareResolved) /\
  resolvedCount squareResolved [squareMotor; squarePassive] = 2.
Proof. split; vm_compute; reflexivity. Qed.

(** C2 (the code departs from it): [forwardLinkage] on the square linkage
    of the test suite throws 'failed to compute all segments', although the
    store at the throw binds [p2] to (0,1) and [p3] to (1,1). *)
Theorem forwardLinkage_square_throws :
  forwardLinkage (squareLinkage [squareMotor; squarePassive]) squareAngles
  = Some (Throw "failed to compute all segments") /\
  exists config',
    forwardConfig squareConfig [squareMotor; squarePassive]
    = Some (Throw "failed to compute all segments", config') /\
    points config' !! "p2" = Some (pt 0 1) /\
    points config' !! "p3" = Some (pt 1 1).
Proof.
  split; [vm_compute; reflexivity|].
  exists squareResolved.
  split; [vm_compute; reflexivity | exact squareResolved_points].
Qed.

(** C3 (the code departs from it): the two orders of the square linkage's
    segments do not have the same outcome.  With the Passive segment first
    [forwardLinkage] returns a store with [p2] at (0,1) and [p3] at (1,1);
    with the Motor segment first it throws. *)
Theorem forwardLinkage_square_orders :
  forwardLinkage (squareLinkage [squarePassive; squareMotor]) squareAngles
  = Some (Ok squareResolved) /\
  points squareResolved !! "p2" = Some (pt 0 1) /\
  points squareResolved !! "p3" = Some (pt 1 1) /\
  forwardLinkage (squareLinkage [squareMotor; squarePassive]) squareAngles
  = Some (Throw "failed to compute all segments").
Proof.
  split; [vm_compute; reflexivity|].
  split; [apply squareResolved_points|].
  split; [apply squareResolved_points | vm_compute; reflexivity].
Qed.

(** C10: with no segments, [forwardConfig] returns normally and the store
    is the one it was given: the single sweep makes no progress, and
    [computedSegments] and [segments.length] are both zero.  So
    [forwardLinkage] on a linkage without segments returns the seeded store. *)
Theorem forwardConfig_no_segments (config : Config) :
  forwardConfig config [] = Some (Ok tt, config) /\
  (forall fuel, forwardConfigFuel (S fuel) config [] = Some (Ok tt, config)) /\
  (forall staticPoints lengths angles,
     forwardLinkage
       {| Linkage.staticPoints := staticPoints; Linkage.lengths := lengths;
          Linkage.segments := [] |} angles
     = Some (Ok {| points := staticPoints; lengths := lengths;
                   angles := angles |})).
Proof.
  split; [reflexivity|]. split; [reflexivity|].
  intros staticPoints lengths angles.
  unfold forwardLinkage. cbn [Linkage.segments Linkage.staticPoints Linkage.lengths].
  rewrite !toMap_id. reflexivity.
Qed.

(** C8: [forwardConfig] terminates.  With one unit of fuel per sweep,
    [S (length segments)] units are enough for a result, more fuel does not
    change it, and a sweep that reports progress leaves strictly more
    segments with their output in the store while no resolved segment
    becomes unresolved. *)
Theorem forwardConfig_terminates (config : Config) (segments : list SegmentRefs) :
  (exists out, forwardConfig config segments = Some out) /\
  (forall fuel, length segments < fuel ->
     forwardConfigFuel fuel config segments = forwardConfig config segments) /\
  (forall config',
     forSegments config segments false = (Ok true, config') ->
     resolvedCount config segments < resolvedCount config' segments /\
     forall segment, resolved config segment = true ->
                     resolved config' segment = true).
Proof.
  assert (Hrun : exists r config',
    whileProgress (S (length segments)) config segments 0 = Some (r, config')).
  { apply whileProgress_fuel. lia. }
  destruct Hrun as (r & config' & Hrun).
  split; [|split].
  - unfold forwardConfig, forwardConfigFuel. rewrite Hrun.
    destruct r as [n|message]; [|eauto].
    destruct (decide (n ≠ length segments)); eauto.
  - intros fuel Hfuel. unfold forwardConfig, forwardConfigFuel.
    rewrite (whileProgress_more_fuel _ _ fuel _ _ _ Hrun) by lia.
    rewrite Hrun. reflexivity.
  - intros config1 Hsweep.
    apply (forSegments_progress segments) in Hsweep as (Hext & _ & Hprog & _);
      [|auto].
    destruct (Hprog eq_refl) as [Hno|Hlt]; [discriminate|].
    split; [exact Hlt|].
    intros segment. apply extends_resolved. exact Hext.
Qed.

(** A sweep that makes progress, on the square linkage with the Passive
    segment listed first: it computes [p2] only. *)
Lemma forwardConfig_terminates_witness :
  resolvedCount squareConfig [squarePassive; squareMotor]
  < resolvedCount (setPoint squareConfig "p2" squareP2)
      [squarePassive; squareMotor].
Proof.
  destruct (forwardConfig_terminates squareConfig [squarePassive; squareMotor])
    as (_ & _ & Hsweep).
  destruct (Hsweep (setPoint squareConfig "p2" squareP2)) as [Hlt _].
  - vm_compute. reflexivity.
  - exact Hlt.
Defined.

(** C9: the store is written once.  [forwardSegment] returns [false] and
    leaves the store as it is when the segment's output is already there;
    whatever a [forwardSegment] call, a sweep or a whole [forwardConfig] run
    does, a point reference that was bound keeps its value. *)
Theorem store_write_once (config : Config) :
  (forall Refs In Out (SegmentKind : Segment Refs In Out) (refs : Refs),
     hasSetOutput SegmentKind config refs = true ->
     forwardSegment config SegmentKind refs = (Ok false, config)) /\
  (forall segment r config' k v,
     forwardSegmentRefs config segment = (r, config') ->
     points config !! k = Some v -> points config' !! k = Some v) /\
  (forall segments progress r config' k v,
     forSegments config segments progress = (r, config') ->
     points config !! k = Some v -> points config' !! k = Some v) /\
  (forall fuel segments r config' k v,
     forwardConfigFuel fuel config segments = Some (r, config') ->
     points config !! k = Some v -> points config' !! k = Some v).
Proof.
  split; [|split; [|split]].
  - intros Refs In Out SegmentKind refs Hhas.
    unfold forwardSegment. rewrite Hhas. reflexivity.
  - intros segment r config' k v Hfw.
    apply forwardSegmentRefs_extends in Hfw as (Hp & _). apply Hp.
  - intros segments progress r config' k v Hsweep.
    apply (forSegments_progress segments) in Hsweep as ((Hp & _) & _); [|auto].
    apply Hp.
  - intros fuel segments r config' k v. unfold forwardConfigFuel.
    destruct (whileProgress fuel config segments 0) as [[r0 c]|] eqn:Hrun;
      [|discriminate].
    apply whileProgress_result in Hrun as ((Hp & _) & _).
    destruct r0 as [n|message].
    + destruct (decide (n ≠ length segments)); intros [= <- <-]; apply Hp.
    + intros [= <- <-]. apply Hp.
Qed.

(** The anchor [p0] of the square linkage keeps its value through the run. *)
Lemma store_write_once_witness :
  points squareResolved !! "p0" = Some (pt 0 0).
Proof.
  destruct (store_write_once squareConfig) as (_ & _ & _ & Hrun).
  apply (Hrun 3 [squareMotor; squarePassive]
              (Throw "failed to compute all segments")).
  - vm_compute. reflexivity.
  - vm_compute. reflexivity.
Defined.

(** ** Gathering input *)

Lemma MotorSegment_getInput_missing_p0 (config : Config) (refs : MotorRefs.t) :
  points config !! MotorRefs.p0 refs = None ->
  getInput MotorSegment config refs
  = Throw ("no value for key " ++ MotorRefs.p0 refs).
Proof. intros Hp0. simpl. unfold getX at 1. rewrite Hp0. reflexivity. Qed.

Lemma MotorSegment_getInput_missing_p1 (config : Config) (refs : MotorRefs.t) :
  is_Some (points config !! MotorRefs.p0 refs) ->
  points config !! MotorRefs.p1 refs = None ->
  getInput MotorSegment config refs
  = Throw ("no value for key " ++ MotorRefs.p1 refs).
Proof.
  intros [v Hp0] Hp1. simpl. unfold getX at 1 2. rewrite Hp0, Hp1. reflexivity.
Qed.

Lemma PassiveSegment_getInput_absent (config : Config) (refs : PassiveRefs.t) :
  points config !! PassiveRefs.p0 refs = None \/
  points config !! PassiveRefs.p1 refs = None ->
  getInput PassiveSegment config refs = Ok None.
Proof.
  intros [Hp|Hp]; simpl; rewrite Hp;
    [|destruct (points config !! PassiveRefs.p0 refs)]; reflexivity.
Qed.

(** C7 (the code departs from it): when [p2] is not yet in the store, the
    Passive segment that reads it gets the absent value, but the Motor
    segment that reads it throws 'no value for key p2'; so a linkage that
    lists such a Motor segment before the segment that computes [p2] fails. *)
Theorem getInput_missing_point :
  points squareConfig !! "p2" = None /\
  getInput PassiveSegment squareConfig passiveOnP2 = Ok None /\
  getInput MotorSegment squareConfig motorOnP2 = Throw "no value for key p2" /\
  forwardLinkage (squareLinkage [t_m motorOnP2; squareMotor]) squareAngles
  = Some (Throw "no value for key p2").
Proof. repeat split; vm_compute; reflexivity. Qed.

(** ** Further properties of the lookups and of the step executor *)

Section Lookups.

Implicit Types (config : Config) (segment : SegmentRefs).

(** X3: [MotorSegment.getInput] never returns the absent value.  It returns
    an input exactly when its two points, its angle and its length are all
    bound, and otherwise throws for the first unbound reference in the
    order p0, p1, theta, len. *)
Theorem MotorSegment_getInput_spec config (refs : MotorRefs.t) :
  getInput MotorSegment config refs <> Ok None /\
  (forall input,
     getInput MotorSegment config refs = Ok (Some input) <->
     points config !! MotorRefs.p0 refs = Some (MotorSegmentIn.p0 input) /\
     points config !! MotorRefs.p1 refs = Some (MotorSegmentIn.p1 input) /\
     angles config !! MotorRefs.theta refs = Some (MotorSegmentIn.theta input) /\
     lengths config !! MotorRefs.len refs = Some (MotorSegmentIn.len input)) /\
  (forall message,
     getInput MotorSegment config refs = Throw message <->
     (points config !! MotorRefs.p0 refs = None /\
      message = noValue (MotorRefs.p0 refs)) \/
     (is_Some (points config !! MotorRefs.p0 refs) /\
      points config !! MotorRefs.p1 refs = None /\
      message = noValue (MotorRefs.p1 refs)) \/
     (is_Some (points config !! MotorRefs.p0 refs) /\
      is_Some (points config !! MotorRefs.p1 refs) /\
      angles config !! MotorRefs.theta refs = None /\
      message = noValue (MotorRefs.theta refs)) \/
     (is_Some (points config !! MotorRefs.p0 refs) /\
      is_Some (points config !! MotorRefs.p1 refs) /\
      is_Some (angles config !! MotorRefs.theta refs) /\
      lengths config !! MotorRefs.len refs = None /\
      message = noValue (MotorRefs.len refs))).
Proof.
  cbn [getInput MotorSegment]. unfold getX, noValue, bindR.
  destruct (points config !! MotorRefs.p0 refs) as [a|];
    destruct (points config !! MotorRefs.p1 refs) as [b|];
    destruct (angles config !! MotorRefs.theta refs) as [t|];
    destruct (lengths config !! MotorRefs.len refs) as [l|];
    (split; [discriminate|]); split.
  all: try (intros [p q th ln]; cbn; split;
            [intros [=]; subst; auto | intros (H1 & H2 & H3 & H4); congruence]).
  all: intros message; split;
    [ intros [= <-]; unfold is_Some; eauto 20
    | intros [(H & ->) | [(H0 & H & ->) | [(H0 & H1 & H & ->) | (H0 & H1 & H2 & H & ->)]]];
      try discriminate; try reflexivity;
      repeat match goal with H : is_Some None |- _ => destruct H; discriminate end ].
Qed.

(** X4: [PassiveSegment.getInput] returns the absent value exactly when one
    of its two points is unbound (whatever the lengths); with both points
    bound it returns an input when both lengths are bound and otherwise
    throws for the first unbound length, len0 before len1. *)
Theorem PassiveSegment_getInput_spec config (refs : PassiveRefs.t) :
  (getInput PassiveSegment config refs = Ok None <->
   points config !! PassiveRefs.p0 refs = None \/
   points config !! PassiveRefs.p1 refs = None) /\
  (forall input,
     getInput PassiveSegment config refs = Ok (Some input) <->
     points config !! PassiveRefs.p0 refs = Some (PassiveSegmentIn.p0 input) /\
     points config !! PassiveRefs.p1 refs = Some (PassiveSegmentIn.p1 input) /\
     lengths config !! PassiveRefs.len0 refs = Some (PassiveSegmentIn.len0 input) /\
     lengths config !! PassiveRefs.len1 refs = Some (PassiveSegmentIn.len1 input)) /\
  (forall message,
     getInput PassiveSegment config refs = Throw message <->
     is_Some (points config !! PassiveRefs.p0 refs) /\
     is_Some (points config !! PassiveRefs.p1 refs) /\
     ((lengths config !! PassiveRefs.len0 refs = None /\
       message = noValue (PassiveRefs.len0 refs)) \/
      (is_Some (lengths config !! PassiveRefs.len0 refs) /\
       lengths config !! PassiveRefs.len1 refs = None /\
       message = noValue (PassiveRefs.len1 refs)))).
Proof.
  cbn [getInput PassiveSegment]. unfold getX, noValue, bindR.
  destruct (points config !! PassiveRefs.p0 refs) as [a|];
    destruct (points config !! PassiveRefs.p1 refs) as [b|];
    destruct (lengths config !! PassiveRefs.len0 refs) as [l0|];
    destruct (lengths config !! PassiveRefs.len1 refs) as [l1|];
    (split; [|split]).
  all: try (split; [discriminate | intros [H|H]; discriminate]).
  all: try (split; [intros _; auto | reflexivity]).
  all: try (intros [p q ln0 ln1]; cbn; split;
            [intros [=]; subst; auto | intros (H1 & H2 & H3 & H4); congruence]).
  all: intros message; split;
    [ try discriminate; intros [= <-]; unfold is_Some; eauto 20
    | intros (H0 & H1 & [(H & ->) | (H2 & H & ->)]);
      try discriminate; try reflexivity;
      repeat match goal with H : is_Some None |- _ => destruct H; discriminate end ].
Qed.

End Lookups.

(** ** Further properties of the driver *)

Section Driver.

Implicit Types (config : Config) (segment : SegmentRefs).

Lemma forwardSegmentRefs_resolved config segment :
  resolved config segment = true ->
  forwardSegmentRefs config segment = (Ok false, config).
Proof.
  destruct segment as [refs|refs]; unfold resolved, outputRef; intros Hres;
    cbn [forwardSegmentRefs]; unfold forwardSegment;
    cbn [hasSetOutput MotorSegment PassiveSegment]; rewrite Hres; reflexivity.
Qed.

Lemma forSegments_all_resolved config segments progress :
  (forall s, s ∈ segments -> resolved config s = true) ->
  forSegments config segments progress = (Ok progress, config).
Proof.
  revert progress. induction segments as [|s rest IH]; intros progress Hall;
    [reflexivity|].
  cbn [forSegments]. rewrite forwardSegmentRefs_resolved
    by (apply Hall, elem_of_cons; left; reflexivity).
  cbn [orb]. apply IH. intros s' Hs'. apply Hall, elem_of_cons. right. exact Hs'.
Qed.

Lemma resolvedCount_full config segments :
  resolvedCount config segments = length segments ->
  forall s, s ∈ segments -> resolved config s = true.
Proof.
  induction segments as [|s0 rest IH]; intros Hcount s Hs; [inversion Hs|].
  cbn [resolvedCount length] in Hcount.
  pose proof (resolvedCount_le_length config rest) as Hle.
  apply elem_of_cons in Hs as [->|Hs].
  - destruct (resolved config s0); [reflexivity | lia].
  - apply IH; [|exact Hs]. destruct (resolved config s0); lia.
Qed.

Lemma resolvedCount_zero config segments :
  resolvedCount config segments = 0 ->
  forall s, s ∈ segments -> resolved config s = false.
Proof.
  induction segments as [|s0 rest IH]; intros Hcount s Hs; [inversion Hs|].
  cbn [resolvedCount] in Hcount.
  apply elem_of_cons in Hs as [->|Hs].
  - destruct (resolved config s0); [lia | reflexivity].
  - apply IH; [|exact Hs]. destruct (resolved config s0); lia.
Qed.

Lemma forwardSegmentRefs_throws config segment message config' :
  forwardSegmentRefs config segment = (Throw message, config') ->
  config' = config /\ exists key, message = noValue key.
Proof.
  intros Hfw. split.
  - apply forwardSegmentRefs_cases in Hfw as [[-> _] | (Hr & _)];
      [reflexivity | discriminate].
  - destruct segment as [refs|refs]; cbn [forwardSegmentRefs] in Hfw;
      unfold forwardSegment in Hfw;
      cbn [hasSetOutput getInput MotorSegment PassiveSegment] in Hfw;
      unfold getX, bindR in Hfw;
      repeat match type of Hfw with
        | context [hasPoint ?c ?k] => destruct (hasPoint c k)
        | context [match ?m !! ?k with _ => _ end] => destruct (m !! k) eqn:?
        end;
      try discriminate; injection Hfw as <- _; eexists; reflexivity.
Qed.

Lemma forSegments_throws segments : forall config progress message config',
  forSegments config segments progress = (Throw message, config') ->
  exists s, s ∈ segments /\
    forwardSegmentRefs config' s = (Throw message, config').
Proof.
  induction segments as [|s rest IH]; intros config progress message config';
    cbn [forSegments]; [discriminate|].
  destruct (forwardSegmentRefs config s) as [[computed|m] c1] eqn:Hfw.
  - intros Hrest. apply IH in Hrest as (s' & Hs' & Hthrow).
    exists s'. split; [apply elem_of_cons; right; exact Hs' | exact Hthrow].
  - intros [= <- <-]. exists s. split; [apply elem_of_cons; left; reflexivity|].
    destruct (forwardSegmentRefs_throws _ _ _ _ Hfw) as [-> _]. exact Hfw.
Qed.

Lemma whileProgress_throws segments : forall fuel config computedSegments message config',
  whileProgress fuel config segments computedSegments = Some (Throw message, config') ->
  exists s, s ∈ segments /\
    forwardSegmentRefs config' s = (Throw message, config').
Proof.
  induction fuel as [|fuel IH]; intros config computedSegments message config';
    [discriminate|].
  cbn [whileProgress].
  destruct (forSegments config segments false) as [[[|]|m] c1] eqn:Hsweep.
  - apply IH.
  - discriminate.
  - intros [= <- <-]. eapply forSegments_throws. exact Hsweep.
Qed.

(** A sweep binds nothing but output references of the segments it visits. *)
Lemma forSegments_binds segments : forall config progress r config' k,
  forSegments config segments progress = (r, config') ->
  is_Some (points config' !! k) ->
  is_Some (points config !! k) \/ exists s, s ∈ segments /\ outputRef s = k.
Proof.
  induction segments as [|s rest IH]; intros config progress r config' k;
    cbn [forSegments].
  - intros [= <- <-] Hk. left. exact Hk.
  - destruct (forwardSegmentRefs config s) as [[computed|m] c1] eqn:Hfw.
    + intros Hrest Hk.
      destruct (IH _ _ _ _ _ Hrest Hk) as [Hk1 | (s' & Hs' & Hout)].
      * apply forwardSegmentRefs_cases in Hfw as [[-> _] | (_ & _ & v & ->)];
          [left; exact Hk1|].
        cbn [points setPoint] in Hk1.
        destruct (decide (outputRef s = k)) as [Heq|Hne].
        -- right. exists s. split; [apply elem_of_cons; left; reflexivity | exact Heq].
        -- left. rewrite lookup_insert_ne in Hk1 by exact Hne. exact Hk1.
      * right. exists s'. split; [apply elem_of_cons; right; exact Hs' | exact Hout].
    + intros [= <- <-] Hk.
      apply forwardSegmentRefs_cases in Hfw as [[-> _] | (Hr & _)];
        [left; exact Hk | discriminate].
Qed.

Lemma whileProgress_binds segments : forall fuel config computedSegments r config' k,
  whileProgress fuel config segments computedSegments = Some (r, config') ->
  is_Some (points config' !! k) ->
  is_Some (points config !! k) \/ exists s, s ∈ segments /\ outputRef s = k.
Proof.
  induction fuel as [|fuel IH]; intros config computedSegments r config' k;
    [discriminate|].
  cbn [whileProgress].
  destruct (forSegments config segments false) as [[[|]|m] c1] eqn:Hsweep.
  - intros Hrun Hk.
    destruct (IH _ _ _ _ _ Hrun Hk) as [Hk1|Hout]; [|right; exact Hout].
    eapply forSegments_binds; eassumption.
  - intros [= <- <-]. eapply forSegments_binds; eassumption.
  - intros [= <- <-]. eapply forSegments_binds; eassumption.
Qed.

(** The outcome of [forwardConfigFuel] in terms of the loop's. *)
Lemma forwardConfigFuel_cases fuel config segments r config' :
  forwardConfigFuel fuel config segments = Some (r, config') ->
  (exists message, r = Throw message /\
     whileProgress fuel config segments 0 = Some (Throw message, config')) \/
  (exists n, whileProgress fuel config segments 0 = Some (Ok n, config') /\
     ((n = length segments /\ r = Ok tt) \/
      (n <> length segments /\ r = Throw "failed to compute all segments"))).
Proof.
  unfold forwardConfigFuel.
  destruct (whileProgress fuel config segments 0) as [[[n|message] c]|];
    [| |discriminate].
  - destruct (decide (n ≠ length segments)) as [Hne|Heq]; intros [= <- <-];
      right; exists n; (split; [reflexivity|]); [right | left]; split;
      try reflexivity; try exact Hne.
    destruct (decide (n = length segments)); tauto.
  - intros [= <- <-]. left. exists message. split; reflexivity.
Qed.

(** X5: [forwardSegment] writes the store only when it returns [true]; it
    then binds the segment's output reference, which was unbound, leaves
    every other point reference as it was, and a second call on the new
    store returns [false] without changing it. *)
Theorem forwardSegment_once config segment r config' :
  forwardSegmentRefs config segment = (r, config') ->
  (r <> Ok true -> config' = config) /\
  (r = Ok true ->
   resolved config segment = false /\
   resolved config' segment = true /\
   (forall k, k <> outputRef segment -> points config' !! k = points config !! k) /\
   lengths config' = lengths config /\ angles config' = angles config /\
   forwardSegmentRefs config' segment = (Ok false, config')).
Proof.
  intros Hfw.
  apply forwardSegmentRefs_cases in Hfw as [[-> Hneq] | (-> & Hfree & v & ->)].
  - split; [reflexivity | intros Hr; contradiction].
  - split; [intros Hneq; exfalso; apply Hneq; reflexivity|]. intros _.
    split; [exact Hfree|]. split; [apply resolved_setPoint_self|].
    split; [|split; [reflexivity|split; [reflexivity|]]].
    + intros k Hne. cbn [points setPoint].
      apply lookup_insert_ne. congruence.
    + apply forwardSegmentRefs_resolved, resolved_setPoint_self.
Qed.

(** The Motor segment of the square linkage on the seeded store. *)
Lemma forwardSegment_once_witness :
  resolved (setPoint squareConfig "p2" squareP2) squareMotor = true /\
  forwardSegmentRefs (setPoint squareConfig "p2" squareP2) squareMotor
  = (Ok false, setPoint squareConfig "p2" squareP2).
Proof.
  destruct (forwardSegment_once squareConfig squareMotor (Ok true)
              (setPoint squareConfig "p2" squareP2)) as [_ Hstep].
  - vm_compute. reflexivity.
  - destruct (Hstep eq_refl) as (_ & Hres & _ & _ & _ & Hagain).
    split; [exact Hres | exact Hagain].
Defined.

(** X6: the store that [forwardLinkage] returns has the linkage's lengths
    and the caller's angles, binds every static point to its value, binds
    the output of every segment, and binds no other point reference. *)
Theorem forwardLinkage_returns (linkage : Linkage.t)
    (angles0 : gmap string number) config' :
  forwardLinkage linkage angles0 = Some (Ok config') ->
  lengths config' = Linkage.lengths linkage /\
  angles config' = angles0 /\
  (forall k v, Linkage.staticPoints linkage !! k = Some v ->
               points config' !! k = Some v) /\
  (forall s, s ∈ Linkage.segments linkage -> resolved config' s = true) /\
  (forall k, is_Some (points config' !! k) ->
     is_Some (Linkage.staticPoints linkage !! k) \/
     exists s, s ∈ Linkage.segments linkage /\ outputRef s = k).
Proof.
  unfold forwardLinkage, forwardConfig. rewrite !toMap_id.
  set (config := {| points := Linkage.staticPoints linkage;
                    lengths := Linkage.lengths linkage; angles := angles0 |}).
  destruct (forwardConfigFuel _ config _) as [[[[]|message] c]|] eqn:Hrun;
    [|discriminate..].
  intros [= <-].
  apply forwardConfigFuel_cases in Hrun
    as [(m & [=] & _) | (n & Hloop & [[-> _] | [_ [=]]])].
  pose proof (whileProgress_result _ _ _ _ _ _ Hloop) as ((Hp & Hl & Ha) & Hn).
  destruct (Hn _ eq_refl) as (_ & Hcount & _).
  split; [exact Hl|]. split; [exact Ha|]. split; [exact Hp|]. split.
  - apply resolvedCount_full.
    pose proof (resolvedCount_le_length c (Linkage.segments linkage)). lia.
  - intros k Hk. eapply (whileProgress_binds _ _ _ _ _ _ k Hloop). exact Hk.
Qed.

(** The square linkage, Passive segment first. *)
Lemma forwardLinkage_returns_witness :
  lengths squareResolved = Linkage.lengths (squareLinkage []) /\
  resolved squareResolved squarePassive = true.
Proof.
  destruct (forwardLinkage_returns (squareLinkage [squarePassive; squareMotor])
              squareAngles squareResolved) as (Hl & _ & _ & Hres & _).
  - vm_compute. reflexivity.
  - split; [exact Hl|]. apply Hres. apply elem_of_cons. left. reflexivity.
Defined.

(** X7: when [forwardConfig] returns normally or throws 'failed to compute
    all segments', the store it leaves is a fixed point of the sweep: one
    more pass over the segments computes nothing and changes nothing. *)
Theorem forwardConfig_fixed_point fuel config segments r config' :
  forwardConfigFuel fuel config segments = Some (r, config') ->
  r = Ok tt \/ r = Throw "failed to compute all segments" ->
  forSegments config' segments false = (Ok false, config').
Proof.
  intros Hrun Hr.
  apply forwardConfigFuel_cases in Hrun as [(m & -> & Hloop) | (n & Hloop & _)].
  - destruct Hr as [[=] | [= ->]].
    apply whileProgress_throws in Hloop as (s & _ & Hthrow).
    apply forwardSegmentRefs_throws in Hthrow as [_ [key Hkey]].
    unfold noValue in Hkey. cbn in Hkey. discriminate Hkey.
  - apply whileProgress_result in Hloop as (_ & Hn).
    destruct (Hn n eq_refl) as (_ & _ & Hfix). exact Hfix.
Qed.

(** The store left by the run on the square linkage that throws. *)
Lemma forwardConfig_fixed_point_witness :
  forSegments squareResolved [squareMotor; squarePassive] false
  = (Ok false, squareResolved).
Proof.
  apply (forwardConfig_fixed_point 3 squareConfig [squareMotor; squarePassive]
           (Throw "failed to compute all segments")).
  - vm_compute. reflexivity.
  - right. reflexivity.
Defined.

(** X8: [forwardConfig] throws only two kinds of error: 'failed to compute
    all segments', or the 'no value for key <ref>' of a [getInput] call; in
    the second case the store it leaves is the one that call saw, so the
    failing segment throws the same error on it again. *)
Theorem forwardConfig_errors fuel config segments message config' :
  forwardConfigFuel fuel config segments = Some (Throw message, config') ->
  message = "failed to compute all segments" \/
  exists s key, s ∈ segments /\ message = noValue key /\
    forwardSegmentRefs config' s = (Throw message, config').
Proof.
  intros Hrun.
  apply forwardConfigFuel_cases in Hrun
    as [(m & [= <-] & Hloop) | (n & _ & [[_ [=]] | [_ [= ->]]])];
    [|left; reflexivity].
  right. apply whileProgress_throws in Hloop as (s & Hs & Hthrow).
  destruct (forwardSegmentRefs_throws _ _ _ _ Hthrow) as [_ [key Hkey]].
  exists s, key. split; [exact Hs|]. split; [exact Hkey | exact Hthrow].
Qed.

(** A Motor segment listed before the segment that computes its [p0]. *)
Lemma forwardConfig_errors_witness :
  "no value for key p2" = "failed to compute all segments" \/
  exists s key, s ∈ [t_m motorOnP2; squareMotor] /\
    "no value for key p2" = noValue key /\
    forwardSegmentRefs squareConfig s = (Throw "no value for key p2", squareConfig).
Proof.
  apply (forwardConfig_errors 3 squareConfig [t_m motorOnP2; squareMotor]).
  vm_compute. reflexivity.
Defined.

(** X9: [forwardConfig] returns normally only from a store in which no
    segment of the list had its output bound. *)
Theorem forwardConfig_returns_from_unresolved fuel config segments config' :
  forwardConfigFuel fuel config segments = Some (Ok tt, config') ->
  forall s, s ∈ segments -> resolved config s = false.
Proof.
  intros Hrun.
  apply forwardConfigFuel_cases in Hrun
    as [(m & [=] & _) | (n & Hloop & [[-> _] | [_ [=]]])].
  apply whileProgress_result in Hloop as (_ & Hn).
  destruct (Hn _ eq_refl) as (_ & Hcount & _).
  apply resolvedCount_zero.
  pose proof (resolvedCount_le_length config' segments). lia.
Qed.

(** The square linkage, Passive segment first. *)
Lemma forwardConfig_returns_from_unresolved_witness :
  resolved squareConfig squareMotor = false.
Proof.
  apply (forwardConfig_returns_from_unresolved 3 squareConfig
           [squarePassive; squareMotor] squareResolved).
  - vm_compute. reflexivity.
  - apply elem_of_cons. right. apply elem_of_cons. left. reflexivity.
Defined.

(** X10: on a store in which every segment of the list is already
    resolved, [forwardConfig] changes nothing; it returns normally for the
    empty list and throws 'failed to compute all segments' otherwise. *)
Theorem forwardConfig_resolved_store config segments :
  (forall s, s ∈ segments -> resolved config s = true) ->
  forwardConfig config segments
  = Some (match segments with
          | [] => Ok tt
          | _ :: _ => Throw "failed to compute all segments"
          end, config).
Proof.
  intros Hall. unfold forwardConfig, forwardConfigFuel. cbn [whileProgress].
  rewrite (forSegments_all_resolved _ _ _ Hall).
  destruct segments; reflexivity.
Qed.

(** The resolved store of the square linkage. *)
Lemma forwardConfig_resolved_store_witness :
  forwardConfig squareResolved [squareMotor; squarePassive]
  = Some (Throw "failed to compute all segments", squareResolved).
Proof.
  apply (forwardConfig_resolved_store squareResolved [squareMotor; squarePassive]).
  intros s Hs.
  apply elem_of_cons in Hs as [->|Hs]; [vm_compute; reflexivity|].
  apply elem_of_cons in Hs as [->|Hs]; [vm_compute; reflexivity|].
  inversion Hs.
Defined.

(** X11: when the first sweep resolves every segment of a list of two or
    more segments, [forwardConfig] throws 'failed to compute all segments'
    and leaves the store of that sweep. *)
Theorem forwardConfig_single_sweep config segments config1 :
  forSegments config segments false = (Ok true, config1) ->
  (forall s, s ∈ segments -> resolved config1 s = true) ->
  2 <= length segments ->
  forwardConfig config segments
  = Some (Throw "failed to compute all segments", config1).
Proof.
  intros Hsweep Hall Hlen. unfold forwardConfig, forwardConfigFuel.
  destruct segments as [|s0 [|s1 rest]]; cbn [length] in Hlen; [lia..|].
  remember (s0 :: s1 :: rest) as segments eqn:Hsegs.
  assert (Hn : length segments = S (S (length rest))) by (subst; reflexivity).
  rewrite Hn. cbn [whileProgress]. rewrite Hsweep.
  rewrite (forSegments_all_resolved _ _ _ Hall).
  destruct (decide (0 + 1 ≠ S (S (length rest)))) as [_|Heq]; [reflexivity|].
  exfalso. apply Heq. lia.
Qed.

(** The square linkage in dependency order. *)
Lemma forwardConfig_single_sweep_witness :
  forwardConfig squareConfig [squareMotor; squarePassive]
  = Some (Throw "failed to compute all segments", squareResolved).
Proof.
  apply (forwardConfig_single_sweep squareConfig [squareMotor; squarePassive]).
  - vm_compute. reflexivity.
  - intros s Hs.
    apply elem_of_cons in Hs as [->|Hs]; [vm_compute; reflexivity|].
    apply elem_of_cons in Hs as [->|Hs]; [vm_compute; reflexivity|].
    inversion Hs.
  - cbn. lia.
Defined.

End Driver.


(** ** The two versions of the file *)

Section Versions.

Implicit Types (config : Config) (segment : SegmentRefs).

Lemma sameRefs_refl config : sameRefs config config.
Proof. repeat split; trivial. Qed.

Lemma sameRefs_hasPoint config1 config2 k :
  sameRefs config1 config2 -> hasPoint config1 k = hasPoint config2 k.
Proof.
  intros (Hp & _). unfold hasPoint. specialize (Hp k).
  destruct (points config1 !! k), (points config2 !! k); try reflexivity.
  - destruct Hp as [Hp _]. destruct Hp; [eauto | discriminate].
  - destruct Hp as [_ Hp]. destruct Hp; [eauto | discriminate].
Qed.

Lemma sameRefs_setPoint config1 config2 k v1 v2 :
  sameRefs config1 config2 ->
  sameRefs (setPoint config1 k v1) (setPoint config2 k v2).
Proof.
  intros (Hp & Hl & Ha). split; [|split; assumption].
  intros k'. cbn [points setPoint].
  destruct (decide (k = k')) as [->|Hne].
  - rewrite !lookup_insert_eq. split; eauto.
  - rewrite !lookup_insert_ne by exact Hne. apply Hp.
Qed.

(** cases on a point lookup in two stores with the same references *)
Ltac same_lookup Hsame k :=
  let H := fresh "Hk" in
  pose proof (sameRefs_hasPoint _ _ k Hsame) as H;
  unfold hasPoint in H;
  destruct (points _ !! k), (points _ !! k); try discriminate H; clear H.

Lemma forwardSegmentRefs_versions config1 config2 segment :
  sameRefs config1 config2 ->
  fst (forwardSegmentRefs config1 segment)
  = fst (forwardSegmentRefsStub config2 segment) /\
  sameRefs (snd (forwardSegmentRefs config1 segment))
           (snd (forwardSegmentRefsStub config2 segment)).
Proof.
  intros Hsame. pose proof Hsame as (_ & Hl & Ha).
  destruct segment as [refs|refs];
    cbn [forwardSegmentRefs forwardSegmentRefsStub]; unfold forwardSegment;
    cbn [hasSetOutput getInput setOutput forward MotorSegment PassiveSegment
         MotorSegmentStub PassiveSegmentStub];
    rewrite (sameRefs_hasPoint _ _ _ Hsame);
    (destruct (hasPoint config2 _); [split; [reflexivity | exact Hsame]|]);
    unfold getX, bindR; rewrite ?Hl, ?Ha.
  - same_lookup Hsame (MotorRefs.p0 refs);
      [|split; [reflexivity | exact Hsame]].
    same_lookup Hsame (MotorRefs.p1 refs);
      [|split; [reflexivity | exact Hsame]].
    destruct (angles config2 !! MotorRefs.theta refs);
      [|split; [reflexivity | exact Hsame]].
    destruct (lengths config2 !! MotorRefs.len refs);
      [|split; [reflexivity | exact Hsame]].
    split; [reflexivity | apply sameRefs_setPoint, Hsame].
  - same_lookup Hsame (PassiveRefs.p0 refs);
      same_lookup Hsame (PassiveRefs.p1 refs);
      try (split; [reflexivity | exact Hsame]).
    destruct (lengths config2 !! PassiveRefs.len0 refs);
      [|split; [reflexivity | exact Hsame]].
    destruct (lengths config2 !! PassiveRefs.len1 refs);
      [|split; [reflexivity | exact Hsame]].
    split; [reflexivity | apply sameRefs_setPoint, Hsame].
Qed.

Lemma forSegments_versions segments : forall config1 config2 progress,
  sameRefs config1 config2 ->
  fst (forSegments config1 segments progress)
  = fst (forSegmentsStub config2 segments progress) /\
  sameRefs (snd (forSegments config1 segments progress))
           (snd (forSegmentsStub config2 segments progress)).
Proof.
  induction segments as [|s rest IH]; intros config1 config2 progress Hsame;
    cbn [forSegments forSegmentsStub]; [split; [reflexivity | exact Hsame]|].
  destruct (forwardSegmentRefs_versions _ _ s Hsame) as [Hr Hc].
  destruct (forwardSegmentRefs config1 s) as [r1 c1],
           (forwardSegmentRefsStub config2 s) as [r2 c2].
  cbn [fst snd] in Hr, Hc. subst r2.
  destruct r1 as [computed|message]; [apply IH, Hc|].
  split; [reflexivity | exact Hc].
Qed.

Lemma whileProgress_versions segments : forall fuel config1 config2 computedSegments,
  sameRefs config1 config2 ->
  match whileProgress fuel config1 segments computedSegments,
        whileProgressStub fuel config2 segments computedSegments with
  | Some (r1, c1), Some (r2, c2) => r1 = r2 /\ sameRefs c1 c2
  | None, None => True
  | _, _ => False
  end.
Proof.
  induction fuel as [|fuel IH]; intros config1 config2 computedSegments Hsame;
    cbn [whileProgress whileProgressStub]; [exact I|].
  destruct (forSegments_versions segments _ _ false Hsame) as [Hr Hc].
  destruct (forSegments config1 segments false) as [r1 c1],
           (forSegmentsStub config2 segments false) as [r2 c2].
  cbn [fst snd] in Hr, Hc. subst r2.
  destruct r1 as [[|]|message].
  - apply IH, Hc.
  - split; [reflexivity | exact Hc].
  - split; [reflexivity | exact Hc].
Qed.

(** A sweep of the first version binds new references to the origin only. *)
Lemma forSegmentsStub_origin segments : forall config progress k v,
  points (snd (forSegmentsStub config segments progress)) !! k = Some v ->
  points config !! k = Some v \/ v = {| x := Fin 0; y := Fin 0 |}.
Proof.
  induction segments as [|s rest IH]; intros config progress k v;
    cbn [forSegmentsStub]; [left; assumption|].
  assert (Hstep : forall w,
    points (snd (forwardSegmentRefsStub config s)) !! k = Some w ->
    points config !! k = Some w \/ w = {| x := Fin 0; y := Fin 0 |}).
  { intros w. destruct s as [refs|refs]; cbn [forwardSegmentRefsStub];
      unfold forwardSegment;
      cbn [hasSetOutput setOutput forward MotorSegmentStub PassiveSegmentStub
           MotorSegment PassiveSegment];
      (destruct (hasPoint config _); [left; assumption|]);
      (destruct (getInput _ config refs) as [[input|]|message];
       cbn [snd]; [|left; assumption..]);
      cbn [points setPoint MotorSegmentOut.p2 PassiveSegmentOut.p2];
      intros Hk;
      match type of Hk with (<[?r := _]> _) !! _ = _ =>
        destruct (decide (r = k)) as [Heq|Hne];
        [rewrite Heq, lookup_insert_eq in Hk; right; congruence
        |rewrite lookup_insert_ne in Hk by exact Hne; left; exact Hk]
      end. }
  destruct (forwardSegmentRefsStub config s) as [[computed|message] c1];
    cbn [snd] in *; [|apply Hstep].
  intros Hk. destruct (IH _ _ _ _ Hk) as [Hk1|Hv]; [apply Hstep, Hk1 | right; exact Hv].
Qed.

Lemma whileProgressStub_origin segments : forall fuel config computedSegments r config' k v,
  whileProgressStub fuel config segments computedSegments = Some (r, config') ->
  points config' !! k = Some v ->
  points config !! k = Some v \/ v = {| x := Fin 0; y := Fin 0 |}.
Proof.
  induction fuel as [|fuel IH]; intros config computedSegments r config' k v;
    [discriminate|].
  cbn [whileProgressStub].
  pose proof (forSegmentsStub_origin segments config false k) as Hsweep.
  destruct (forSegmentsStub config segments false) as [[[|]|message] c1];
    cbn [snd] in Hsweep.
  - intros Hrun Hk. destruct (IH _ _ _ _ _ _ Hrun Hk) as [Hk1|Hv];
      [apply Hsweep, Hk1 | right; exact Hv].
  - intros [= <- <-]. apply Hsweep.
  - intros [= <- <-]. apply Hsweep.
Qed.

(** X16: the driver does not look at the points it computes.  From the same
    store, [forwardConfig] of [src/LinkageGraph.js], whose [forward]
    functions return the origin, ends as the full version does (the same
    normal return or the same error, or both out of fuel), with the same
    point references bound and the same lengths and angles; every point it
    has added is the origin. *)
Theorem forwardConfig_versions fuel config segments :
  match forwardConfigFuel fuel config segments,
        forwardConfigFuelStub fuel config segments with
  | Some (r1, c1), Some (r2, c2) =>
      r1 = r2 /\ sameRefs c1 c2 /\
      forall k v, points c2 !! k = Some v ->
        points config !! k = Some v \/ v = {| x := Fin 0; y := Fin 0 |}
  | None, None => True
  | _, _ => False
  end.
Proof.
  unfold forwardConfigFuel, forwardConfigFuelStub.
  pose proof (whileProgress_versions segments fuel config config 0
                (sameRefs_refl config)) as Hloop.
  pose proof (whileProgressStub_origin segments fuel config 0) as Horigin.
  destruct (whileProgress fuel config segments 0) as [[r1 c1]|],
           (whileProgressStub fuel config segments 0) as [[r2 c2]|];
    try contradiction; [|exact I].
  destruct Hloop as [<- Hc].
  specialize (Horigin r1 c2).
  destruct r1 as [n|message].
  - destruct (decide (n ≠ length segments));
      (split; [reflexivity|]); (split; [exact Hc|]);
      intros k v; apply Horigin; reflexivity.
  - split; [reflexivity|]. split; [exact Hc|].
    intros k v. apply Horigin. reflexivity.
Qed.

End Versions.


(** ** What a normal return guarantees *)

Section Soundness.

Implicit Types (config : Config) (segment : SegmentRefs).

Lemma getX_extends {V} (m m' : gmap string V) key v :
  (forall k w, m !! k = Some w -> m' !! k = Some w) ->
  getX m key = Ok v -> getX m' key = Ok v.
Proof.
  unfold getX. intros Hsub. destruct (m !! key) as [w|] eqn:Hk; [|discriminate].
  intros [= <-]. rewrite (Hsub _ _ Hk). reflexivity.
Qed.

Lemma getInput_extends config config' segment :
  extends config config' ->
  match segment with
  | t_m refs => forall input,
      getInput MotorSegment config refs = Ok (Some input) ->
      getInput MotorSegment config' refs = Ok (Some input)
  | t_p refs => forall input,
      getInput PassiveSegment config refs = Ok (Some input) ->
      getInput PassiveSegment config' refs = Ok (Some input)
  end.
Proof.
  intros (Hp & Hl & Ha).
  destruct segment as [refs|refs]; intros input;
    cbn [getInput MotorSegment PassiveSegment]; rewrite ?Hl, ?Ha.
  - unfold bindR.
    destruct (getX (points config) (MotorRefs.p0 refs)) as [a|] eqn:H0;
      [|discriminate].
    destruct (getX (points config) (MotorRefs.p1 refs)) as [b|] eqn:H1;
      [|discriminate].
    rewrite (getX_extends _ _ _ _ Hp H0), (getX_extends _ _ _ _ Hp H1).
    trivial.
  - destruct (points config !! PassiveRefs.p0 refs) as [a|] eqn:H0;
      [|discriminate].
    destruct (points config !! PassiveRefs.p1 refs) as [b|] eqn:H1;
      [|discriminate].
    rewrite (Hp _ _ H0), (Hp _ _ H1). trivial.
Qed.

Lemma consistent_extends config config' segment :
  extends config config' ->
  consistent config segment -> consistent config' segment.
Proof.
  intros Hext. pose proof (getInput_extends _ _ segment Hext) as Hin.
  destruct Hext as (Hp & _).
  destruct segment as [refs|refs]; intros (input & Hget & Hout);
    exists input; (split; [apply Hin, Hget | apply Hp, Hout]).
Qed.

Lemma forwardSegmentRefs_consistent config segment config' :
  forwardSegmentRefs config segment = (Ok true, config') ->
  consistent config' segment.
Proof.
  intros Hfw. pose proof (forwardSegmentRefs_extends _ _ _ _ Hfw) as Hext.
  pose proof (getInput_extends _ _ segment Hext) as Hin.
  destruct segment as [refs|refs]; cbn [forwardSegmentRefs] in Hfw;
    apply forwardSegment_cases in Hfw
      as [[_ Hneq] | (_ & _ & input & Hget & ->)];
    try (exfalso; apply Hneq; reflexivity);
    exists input; (split; [apply Hin, Hget|]);
    cbn [setOutput MotorSegment PassiveSegment points setPoint];
    apply lookup_insert_eq.
Qed.

(** Two segments that become resolved together count twice. *)
Lemma resolvedCount_two config config' segments s s' :
  (forall t, resolved config t = true -> resolved config' t = true) ->
  s ∈ segments -> resolved config s = false -> resolved config' s = true ->
  s' ∈ segments -> resolved config s' = false -> resolved config' s' = true ->
  s' = s \/ resolvedCount config segments + 2 <= resolvedCount config' segments.
Proof.
  intros Hmono.
  assert (Hle : forall l, resolvedCount config l <= resolvedCount config' l).
  { induction l as [|a l IH]; cbn [resolvedCount]; [lia|].
    destruct (resolved config a) eqn:Ha; [rewrite (Hmono _ Ha); lia|].
    destruct (resolved config' a); lia. }
  assert (Hone : forall l t, t ∈ l -> resolved config t = false ->
    resolved config' t = true ->
    resolvedCount config l + 1 <= resolvedCount config' l).
  { induction l as [|a l IH]; intros t Ht H0 H1; [inversion Ht|].
    cbn [resolvedCount]. apply elem_of_cons in Ht as [<-|Ht].
    - rewrite H0, H1. specialize (Hle l). lia.
    - specialize (IH _ Ht H0 H1).
      destruct (resolved config a) eqn:Ha; [rewrite (Hmono _ Ha); lia|].
      destruct (resolved config' a); lia. }
  induction segments as [|a rest IH]; intros Hs H0 H1 Hs' H0' H1';
    [inversion Hs|].
  cbn [resolvedCount].
  apply elem_of_cons in Hs as [->|Hs]; apply elem_of_cons in Hs' as [->|Hs'].
  - left. reflexivity.
  - right. rewrite H0, H1. specialize (Hone _ _ Hs' H0' H1'). lia.
  - right. rewrite H0', H1'. specialize (Hone _ _ Hs H0 H1). lia.
  - destruct (IH Hs H0 H1 Hs' H0' H1') as [Heq|Hcount]; [left; exact Heq|].
    right. destruct (resolved config a) eqn:Ha; [rewrite (Hmono _ Ha); lia|].
    destruct (resolved config' a); lia.
Qed.

Lemma forwardSegmentRefs_keeps_consistent all config segment r config' :
  segment ∈ all ->
  forwardSegmentRefs config segment = (r, config') ->
  resolvedCount config' all <= resolvedCount config all + 1 ->
  resolvedConsistent config all -> resolvedConsistent config' all.
Proof.
  intros Hin Hfw Hcount Hinv.
  pose proof (forwardSegmentRefs_extends _ _ _ _ Hfw) as Hext.
  pose proof Hfw as Hcases.
  apply forwardSegmentRefs_cases in Hcases
    as [[-> _] | (-> & Hfree & v & Hc)]; [exact Hinv|].
  intros s' Hs' Hres'.
  destruct (resolved config s') eqn:Hres.
  - apply (consistent_extends _ _ _ Hext). apply Hinv; assumption.
  - destruct (resolvedCount_two config config' all segment s') as [->|Htwo];
      try assumption.
    + intros t. apply extends_resolved, Hext.
    + subst config'. apply resolved_setPoint_self.
    + eapply forwardSegmentRefs_consistent. exact Hfw.
    + lia.
Qed.

Lemma forSegments_keeps_consistent all segments : forall config progress r config',
  (forall s, s ∈ segments -> s ∈ all) ->
  forSegments config segments progress = (r, config') ->
  resolvedCount config' all <= resolvedCount config all + 1 ->
  resolvedConsistent config all -> resolvedConsistent config' all.
Proof.
  induction segments as [|s rest IH]; intros config progress r config' Hall;
    cbn [forSegments].
  - intros [= <- <-] _ Hinv. exact Hinv.
  - destruct (forwardSegmentRefs config s) as [[computed|message] c1] eqn:Hfw.
    + intros Hrest Hcount Hinv.
      assert (Hrest_all : forall s', s' ∈ rest -> s' ∈ all)
        by (intros s' Hs'; apply Hall, elem_of_cons; right; exact Hs').
      pose proof (forSegments_progress all rest _ _ _ _ Hrest_all Hrest)
        as (_ & Hle_rest & _).
      assert (Hle_step : resolvedCount config all <= resolvedCount c1 all).
      { apply forwardSegmentRefs_cases in Hfw as [[-> _] | (_ & _ & v & ->)];
          [lia | apply resolvedCount_setPoint_mono]. }
      apply (IH _ _ _ _ Hrest_all Hrest); [lia|].
      eapply (forwardSegmentRefs_keeps_consistent all config s _ c1);
        [apply Hall, elem_of_cons; left; reflexivity | exact Hfw | lia | exact Hinv].
    + intros [= <- <-] Hcount Hinv.
      eapply (forwardSegmentRefs_keeps_consistent all config s _ c1);
        [apply Hall, elem_of_cons; left; reflexivity | exact Hfw
        | exact Hcount | exact Hinv].
Qed.

Lemma whileProgress_keeps_consistent segments : forall fuel config computedSegments n config',
  whileProgress fuel config segments computedSegments = Some (Ok n, config') ->
  resolvedCount config' segments
  <= (n - computedSegments) + resolvedCount config segments ->
  resolvedConsistent config segments -> resolvedConsistent config' segments.
Proof.
  induction fuel as [|fuel IH]; intros config computedSegments n config';
    [discriminate|].
  cbn [whileProgress].
  destruct (forSegments config segments false) as [[[|]|message] c1] eqn:Hsweep;
    [| |discriminate].
  - intros Hrun Hcount Hinv.
    pose proof (forSegments_progress segments segments _ _ _ _
                  (fun _ H => H) Hsweep) as (_ & _ & Hprog & _).
    destruct (Hprog eq_refl) as [Hno|Hlt]; [discriminate|].
    pose proof (whileProgress_result _ _ _ _ _ _ Hrun) as (_ & Hn).
    destruct (Hn n eq_refl) as (Hle & Hcount1 & _).
    apply (IH _ _ _ _ Hrun); [lia|].
    eapply (forSegments_keeps_consistent segments segments config false _ c1);
      [auto | exact Hsweep | lia | exact Hinv].
  - intros [= <- <-] _ Hinv.
    pose proof (forSegments_progress segments segments _ _ _ _
                  (fun _ H => H) Hsweep) as (_ & _ & _ & Hsame).
    rewrite (Hsame eq_refl). exact Hinv.
Qed.

(** X17: a normal return of [forwardConfig], and so of [forwardLinkage],
    leaves a consistent store: for every segment of the list, [getInput]
    succeeds on the final store and the segment's output reference is bound
    to [forward] of that input. *)
Theorem forwardConfig_sound :
  (forall fuel config segments config',
     forwardConfigFuel fuel config segments = Some (Ok tt, config') ->
     forall s, s ∈ segments -> consistent config' s) /\
  (forall linkage angles0 config',
     forwardLinkage linkage angles0 = Some (Ok config') ->
     forall s, s ∈ Linkage.segments linkage -> consistent config' s).
Proof.
  assert (Hconfig : forall fuel config segments config',
    forwardConfigFuel fuel config segments = Some (Ok tt, config') ->
    forall s, s ∈ segments -> consistent config' s).
  { intros fuel config segments config' Hrun.
    apply forwardConfigFuel_cases in Hrun
      as [(m & [=] & _) | (n & Hloop & [[-> _] | [_ [=]]])].
    pose proof (whileProgress_result _ _ _ _ _ _ Hloop) as (_ & Hn).
    destruct (Hn _ eq_refl) as (_ & Hcount & _).
    pose proof (resolvedCount_le_length config' segments) as Hle.
    assert (Hzero : resolvedCount config segments = 0) by lia.
    assert (Hfull : resolvedCount config' segments = length segments) by lia.
    intros s Hs.
    apply (whileProgress_keeps_consistent _ _ _ _ _ _ Hloop);
      [lia | | exact Hs |].
    - intros s' Hs' Hres.
      rewrite (resolvedCount_zero _ _ Hzero _ Hs') in Hres. discriminate.
    - apply (resolvedCount_full _ _ Hfull). exact Hs. }
  split; [exact Hconfig|].
  intros linkage angles0 config'. unfold forwardLinkage, forwardConfig.
  destruct (forwardConfigFuel _ _ _) as [[[[]|message] c]|] eqn:Hrun;
    [|discriminate..].
  intros [= <-]. eapply Hconfig. exact Hrun.
Qed.

(** The square linkage, Passive segment first. *)
Lemma forwardConfig_sound_witness : consistent squareResolved squarePassive.
Proof.
  destruct forwardConfig_sound as [_ Hlinkage].
  apply (Hlinkage (squareLinkage [squarePassive; squareMotor]) squareAngles).
  - vm_compute. reflexivity.
  - apply elem_of_cons. left. reflexivity.
Defined.

End Soundness.
